(** * tes4_pack: packing a directory under every flag combination

    A shallow embedding of [scripts/tes4_pack.py].  The script computes the
    power set of the [Flags] enumeration, folds each subset into one integer
    with bitwise OR, and shells out to the [bsarch] archiver once per job.

    The pure part (flags, [powerset], [accumulate], string formatting) is
    embedded as functions; the effectful part ([os.chdir], [os.makedirs],
    [subprocess.run]) is embedded in a state-and-exception monad over a
    small model of the process and of the file system. *)

From Stdlib Require Import ZArith Ascii String List Lia DecimalString.
From stdpp Require Import base numbers list strings gmap.
Import ListNotations.

Local Open Scope Z_scope.

(** ** The flag enumeration (lines 3-8) *)

Inductive Flags :=
| directory_strings
| file_strings
| compressed
| embedded_file_names.

(** [flag.value]: each member is [1 << k]. *)
Definition value (flag : Flags) : Z :=
  match flag with
  | directory_strings => Z.shiftl 1 0
  | file_strings => Z.shiftl 1 1
  | compressed => Z.shiftl 1 2
  | embedded_file_names => Z.shiftl 1 8
  end.

(** Iterating over the enumeration class yields the members in definition
    order. *)
Definition Flags_members : list Flags :=
  [directory_strings; file_strings; compressed; embedded_file_names].

(** [[flag.value for flag in Flags]] *)
Definition flag_values : list Z := map value Flags_members.

(** ** itertools *)

(** [itertools.combinations(s, r)]: the [r]-element subsequences of [s], in
    lexicographic order of positions. *)
Fixpoint combinations {A} (s : list A) (r : nat) : list (list A) :=
  match r, s with
  | O, _ => [[]]
  | S _, [] => []
  | S r', x :: t => map (cons x) (combinations t r') ++ combinations t r
  end.

(** [powerset] (lines 10-13): the chain of [combinations(s, r)] for
    [r] in [range(len(s)+1)].  This is the sequence of items the returned
    iterator yields. *)
Definition powerset {A} (a_iterable : list A) : list (list A) :=
  let s := a_iterable in
  concat (map (fun r => combinations s r) (seq 0 (length s + 1))).

(** [itertools.accumulate(xs, func, initial=init)]: the running results,
    starting with the initial value itself. *)
Fixpoint accumulate {A B} (func : B -> A -> B) (xs : list A) (initial : B)
  : list B :=
  initial ::
  match xs with
  | [] => []
  | x :: t => accumulate func t (func initial x)
  end.

(** ** Exceptions *)

Inductive exn :=
| IndexError
| ValueError
| FileNotFoundError
| FileExistsError
| NotADirectoryError
| SystemExit (code : Z)
| CalledProcessError (returncode : Z) (cmd : list string).

Inductive result (A : Type) :=
| Ok (a : A)
| Raise (e : exn).
Arguments Ok {A} a.
Arguments Raise {A} e.

(** [l[-1]]: the last item, [IndexError] on an empty list. *)
Fixpoint index_neg1 {A} (l : list A) : result A :=
  match l with
  | [] => Raise IndexError
  | [x] => Ok x
  | _ :: t => index_neg1 t
  end.

(** The accumulated flags of one combination (line 20):
    [list(accumulate(combo, lambda sum, elem: sum | elem, initial=0))[-1]]. *)
Definition accumulated_flags (combo : list Z) : result Z :=
  index_neg1 (accumulate (fun sum elem => Z.lor sum elem) combo 0).

(** ** String formatting *)

(** Values passed to [str.format]. *)
Inductive pyval :=
| PStr (s : string)
| PInt (n : Z).

(** The digits of upper-case hexadecimal, in order of value. *)
Definition hex_digits : string := "0123456789ABCDEF".

Definition hex_digit_upper (d : N) : ascii :=
  match String.get (N.to_nat d) hex_digits with
  | Some c => c
  | None => "F"%char
  end.

(** The hexadecimal digits of [n], most significant first, in front of
    [acc].  [fuel] bounds the number of digits. *)
Fixpoint hex_upper_aux (fuel : nat) (n : N) (acc : string) : string :=
  match fuel with
  | O => acc
  | S fuel' =>
      let acc' := String (hex_digit_upper (n mod 16)%N) acc in
      if (n / 16 =? 0)%N then acc' else hex_upper_aux fuel' (n / 16)%N acc'
  end.

Definition hex_upper (n : N) : string :=
  hex_upper_aux (S (N.to_nat (N.log2 n))) n "".

(** [format(n, "X")] for an [int]: a minus sign for negative numbers, then
    the magnitude in upper-case hexadecimal. *)
Definition format_X (n : Z) : string :=
  if n <? 0 then String "-" (hex_upper (Z.to_N (- n)))
  else hex_upper (Z.to_N n).

(** [str(v)] *)
Definition py_str (v : pyval) : string :=
  match v with
  | PStr s => s
  | PInt n => DecimalString.NilZero.string_of_int (Z.to_int n)
  end.

(** One replacement field.  The fragment of the format mini-language that the
    script uses is modelled: the empty field [{}] and the field [{:X}]; any
    other specification is rejected. *)
Definition format_field (spec : string) (v : pyval) : result string :=
  if String.eqb spec "" then Ok (py_str v)
  else if String.eqb spec ":X" then
    match v with
    | PInt n => Ok (format_X n)
    | PStr _ => Raise ValueError
    end
  else Raise ValueError.

Definition result_map {A B} (f : A -> B) (r : result A) : result B :=
  match r with
  | Ok a => Ok (f a)
  | Raise e => Raise e
  end.

Definition result_bind {A B} (r : result A) (k : A -> result B) : result B :=
  match r with
  | Ok a => k a
  | Raise e => Raise e
  end.

(** [template.format( *args )] with automatically numbered fields.  [field]
    is [None] in literal text and [Some spec] inside a replacement field whose
    text so far is [spec]. *)
Fixpoint str_format_aux (template : string) (field : option string)
    (args : list pyval) : result string :=
  match template, field with
  | EmptyString, None => Ok EmptyString
  | EmptyString, Some _ => Raise ValueError
  | String "{" (String "{" rest), None =>
      result_map (String "{") (str_format_aux rest None args)
  | String "}" (String "}" rest), None =>
      result_map (String "}") (str_format_aux rest None args)
  | String "{" rest, None => str_format_aux rest (Some EmptyString) args
  | String "}" _, None => Raise ValueError
  | String c rest, None =>
      result_map (String c) (str_format_aux rest None args)
  | String "}" rest, Some spec =>
      match args with
      | [] => Raise IndexError
      | v :: args' =>
          result_bind (format_field spec v) (fun s =>
          result_map (String.append s) (str_format_aux rest None args'))
      end
  | String c rest, Some spec =>
      str_format_aux rest (Some (spec +:+ String c EmptyString)) args
  end%char.

Definition str_format (template : string) (args : list pyval) : result string :=
  str_format_aux template None args.

(** ** The process and its environment *)

(** [argparse.Namespace] with the two positional arguments. *)
Record Namespace := { bsarch : string; directory : string }.

Inductive node := Directory | RegularFile.

Global Instance node_eq_dec : EqDecision node.
Proof. solve_decision. Defined.

(** One attempt to start the archiver: the working directory and argument
    vector it was started with, and its exit status ([None] when the program
    could not be started). *)
Record call := {
  call_cwd : string;
  call_args : list string;
  call_status : option Z
}.

(** The state the script acts on: the working directory of the process, the
    file system (absolute path to node), and the log of archiver calls. *)
Record World := {
  cwd : string;
  fs : gmap string node;
  calls : list call
}.

(** What starting a child process leads to. *)
Inductive spawned :=
| NotExecutable
| Exited (returncode : Z) (fs' : gmap string node).

(** State and exception monad of the script. *)
Definition M (A : Type) : Type := World -> result A * World.

Definition ret {A} (a : A) : M A := fun w => (Ok a, w).
Definition lift {A} (r : result A) : M A := fun w => (r, w).
Definition bind {A B} (m : M A) (k : A -> M B) : M B :=
  fun w =>
    match m w with
    | (Ok a, w') => k a w'
    | (Raise e, w') => (Raise e, w')
    end.

Declare Scope script_scope.
Delimit Scope script_scope with script.
Notation "x <- m ;; k" := (bind m (fun x => k))
  (at level 100, m at next level, right associativity) : script_scope.
Notation "m ;; k" := (bind m (fun _ => k))
  (at level 100, right associativity) : script_scope.
Local Open Scope script_scope.

(** [for x in xs: s = body(x, s)] over a tuple or list, threading [s]. *)
Fixpoint for_in {A S} (xs : list A) (body : A -> S -> M S) (s : S) : M S :=
  match xs with
  | [] => ret s
  | x :: rest => s' <- body x s ;; for_in rest body s'
  end.

(** [for x in it: body(x)] over a one-shot iterator.  The iterator is
    represented by the items it has yet to yield; the loop returns what is
    left of it, which is nothing once the loop has run to completion. *)
Fixpoint for_iterator {A} (it : list A) (body : A -> M unit) : M (list A) :=
  match it with
  | [] => ret []
  | x :: it' => body x ;; for_iterator it' body
  end.

(** [posixpath.join(a, b)] *)
Definition os_path_join (a b : string) : string :=
  if String.prefix "/" b then b
  else if String.eqb a ""
          || String.eqb (String.substring (String.length a - 1) 1 a) "/"
       then a +:+ b
       else a +:+ "/" +:+ b.

Definition set_cwd (w : World) (d : string) : World :=
  {| cwd := d; fs := fs w; calls := calls w |}.

Definition set_fs (w : World) (m : gmap string node) : World :=
  {| cwd := cwd w; fs := m; calls := calls w |}.

Definition log_call (w : World) (c : call) : World :=
  {| cwd := cwd w; fs := fs w; calls := calls w ++ [c] |}.

(** [os.chdir(path)] *)
Definition os_chdir (path : string) : M unit :=
  fun w =>
    let target := os_path_join (cwd w) path in
    match fs w !! target with
    | Some Directory => (Ok tt, set_cwd w target)
    | Some RegularFile => (Raise NotADirectoryError, w)
    | None => (Raise FileNotFoundError, w)
    end.

(** [os.makedirs(name, exist_ok=exist_ok)] for a directory whose parent is
    the working directory. *)
Definition os_makedirs (name : string) (exist_ok : bool) : M unit :=
  fun w =>
    let target := os_path_join (cwd w) name in
    match fs w !! target with
    | Some Directory =>
        if exist_ok then (Ok tt, w) else (Raise FileExistsError, w)
    | Some RegularFile => (Raise FileExistsError, w)
    | None => (Ok tt, set_fs w (<[target := Directory]> (fs w)))
    end.

(** ** The script *)

Section Script.

(** The behaviour of the operating system when asked to run a command: a
    function of the file system, of the working directory of the child
    and of the argument vector. *)
Variable spawn : gmap string node -> string -> list string -> spawned.

(** [os.path.dirname(os.path.realpath(__file__))] *)
Variable script_dir : string.

(** [parser.parse_args()] on the command line of the process; it raises
    [SystemExit] on a malformed command line. *)
Variable parse_args : list string -> result Namespace.

(** [subprocess.run(args, check=check)] *)
Definition subprocess_run (args : list string) (check : bool) : M unit :=
  fun w =>
    match spawn (fs w) (cwd w) args with
    | NotExecutable =>
        (Raise FileNotFoundError,
         log_call w {| call_cwd := cwd w; call_args := args;
                       call_status := None |})
    | Exited returncode fs' =>
        let w' :=
          log_call (set_fs w fs')
            {| call_cwd := cwd w; call_args := args;
               call_status := Some returncode |} in
        if check && negb (returncode =? 0)
        then (Raise (CalledProcessError returncode args), w')
        else (Ok tt, w')
    end.

(** The body of the inner loop (lines 20-29). *)
Definition pack (a_args : Namespace) (format : string) (combo : list Z)
  : M unit :=
  af <- lift (accumulated_flags combo) ;;
  name <- lift (str_format "{}_{:X}.bsa" [PStr format; PInt af]) ;;
  fmt <- lift (str_format "-{}" [PStr format]) ;;
  afs <- lift (str_format "-af:0x{:X}" [PInt af]) ;;
  subprocess_run
    [bsarch a_args; "pack"%string; directory a_args; name; fmt; afs]
    true.

Definition formats : list string := ["tes4"; "tes5"; "sse"]%string.

(** [combinate] (lines 15-29).  [combinations] is bound once, to the
    iterator [powerset] returns, and the inner loop of every format draws
    from that same iterator. *)
Definition combinate (a_args : Namespace) : M unit :=
  let combinations := powerset flag_values in
  for_in formats
    (fun format combinations =>
       for_iterator combinations (fun combo => pack a_args format combo))
    combinations ;;
  ret tt.

(** [main] (lines 37-45) *)
Definition main (argv : list string) : M unit :=
  args <- lift (parse_args argv) ;;
  os_chdir script_dir ;;
  let out := "bin"%string in
  os_makedirs out true ;;
  os_chdir out ;;
  combinate args.

(** The exit status of the interpreter: 0 when [main] returns, the code of
    a [SystemExit], and 1 for any other exception that reaches the top. *)
Definition exit_status (r : result unit) : Z :=
  match r with
  | Ok _ => 0
  | Raise (SystemExit code) => code
  | Raise _ => 1
  end.

Definition script (argv : list string) (w : World) : Z * World :=
  let (r, w') := main argv w in (exit_status r, w').

End Script.

(** ** Reference notions used in the statements *)

(** The value of an upper-case hexadecimal numeral read from left to right,
    starting from [acc]; [None] when a character is not one of
    [0-9] or [A-F].  The value of a digit is its position in
    [hex_digits]. *)
Fixpoint digit_index (c : ascii) (digits : string) (i : N) : option N :=
  match digits with
  | EmptyString => None
  | String c' rest =>
      if Ascii.eqb c c' then Some i else digit_index c rest (i + 1)%N
  end.

Definition hex_digit_value (c : ascii) : option N :=
  digit_index c hex_digits 0.

Fixpoint hex_value_from (acc : N) (s : string) : option N :=
  match s with
  | EmptyString => Some acc
  | String c rest =>
      match hex_digit_value c with
      | Some d => hex_value_from (acc * 16 + d)%N rest
      | None => None
      end
  end.

Definition hex_value (s : string) : option N :=
  match s with
  | EmptyString => None
  | _ => hex_value_from 0 s
  end.

(** The argument vector line 21-28 builds for a format and a flags value. *)
Definition pack_args (a_args : Namespace) (format : string) (af : Z)
  : list string :=
  [ bsarch a_args; "pack"; directory a_args;
    format +:+ "_" +:+ format_X af +:+ ".bsa";
    "-" +:+ format;
    "-af:0x" +:+ format_X af ]%string.

(** A call failed when the program could not be started or exited with a
    status other than 0. *)
Definition call_failed (c : call) : bool :=
  match call_status c with
  | None => true
  | Some returncode => negb (returncode =? 0)
  end.

(** The exceptions [subprocess.run] raises. *)
Definition run_error (e : exn) : Prop :=
  e = FileNotFoundError ∨ ∃ returncode cmd,
    returncode ≠ 0 ∧ e = CalledProcessError returncode cmd.

(** The calls of a run that stops at the first failed call: with result
    [Ok] every call succeeded; with an exception the last call failed and
    is the only one that did. *)
Definition fail_fast {R} (r : result R) (new : list call) : Prop :=
  match r with
  | Ok _ => Forall (λ c, call_failed c = false) new
  | Raise e =>
      run_error e ∧ ∃ pre c,
        new = pre ++ [c] ∧
        Forall (λ c', call_failed c' = false) pre ∧
        call_failed c = true
  end.

(** The world in which [main] calls [combinate]: the working directory is
    [bin], which has been created unless it was there already. *)
Definition started (w : World) (bin : string) : World :=
  {| cwd := bin;
     fs := match fs w !! bin with
           | Some _ => fs w
           | None => <[bin := Directory]> (fs w)
           end;
     calls := calls w |}.

(** The flags value of a combination. *)
Definition flags_of (combo : list Z) : Z := fold_left Z.lor combo 0.

(** The argument vectors of the jobs of format [tes4], in the order of the
    power set. *)
Definition tes4_args (a_args : Namespace) : list (list string) :=
  map (fun combo => pack_args a_args "tes4" (flags_of combo))
    (powerset flag_values).



(** ** Example environments *)

(** A command line parser for two positional arguments. *)
Definition two_positionals (argv : list string) : result Namespace :=
  match argv with
  | [a; b] => Ok {| bsarch := a; directory := b |}
  | _ => Raise (SystemExit 2)
  end.

(** An archiver that writes the archive named by its fourth argument into
    its working directory and exits with status 0. *)
Definition archiver_writes (m : gmap string node) (dir : string)
    (args : list string) : spawned :=
  match args !! 3%nat with
  | Some name => Exited 0 (<[os_path_join dir name := RegularFile]> m)
  | None => Exited 0 m
  end.

(** An archiver that exits with status 1 when asked for the archive [bad],
    and behaves like [archiver_writes] otherwise. *)
Definition archiver_failing_on (bad : string) (m : gmap string node)
    (dir : string) (args : list string) : spawned :=
  if bool_decide (args !! 3%nat = Some bad) then Exited 1 m
  else archiver_writes m dir args.

(** No program at the archiver path. *)
Definition no_archiver (m : gmap string node) (dir : string)
    (args : list string) : spawned :=
  NotExecutable.

Definition example_world : World :=
  {| cwd := "/home/user";
     fs := {[ "/home/user" := Directory; "/repo/scripts" := Directory ]};
     calls := [] |}.

Definition example_argv : list string := ["bsarch.exe"; "data"]%string.

(** A world in which a regular file named [bin] lies in the script
    directory. *)
Definition blocked_world : World :=
  {| cwd := "/home/user";
     fs := {[ "/repo/scripts" := Directory;
              "/repo/scripts/bin" := RegularFile ]};
     calls := [] |}.

(** ** The power set *)

Section Combinations.
Context {A : Type}.
Implicit Types (s t c : list A) (x : A) (r k : nat).

Lemma combinations_0 s : combinations s 0 = [[]].
Proof. by destruct s. Qed.

Lemma elem_of_combinations s r c :
  c ∈ combinations s r ↔ c `sublist_of` s ∧ length c = r.
Proof.
  revert r c. induction s as [|x t IH]; intros r c.
  - destruct r as [|r]; simpl.
    + rewrite list_elem_of_singleton, sublist_nil_r.
      split; [by intros ->|by intros [-> _]].
    + rewrite elem_of_nil, sublist_nil_r.
      split; [done|]. by intros [-> ?].
  - destruct r as [|r]; simpl.
    + rewrite list_elem_of_singleton. split.
      * intros ->. split; [apply sublist_nil_l|done].
      * intros [_ Hlen]. by destruct c.
    + rewrite elem_of_app, list_elem_of_fmap, sublist_cons_r. split.
      * intros [(c' & -> & Hc')|Hc].
        -- apply IH in Hc' as [? <-]. split; [right; eauto|done].
        -- apply IH in Hc as [? ?]. split; [by left|done].
      * intros [[Hsub|(c' & -> & Hsub)] Hlen].
        -- right. by apply IH.
        -- left. exists c'. split; [done|]. apply IH.
           split; [done|]. simpl in Hlen. lia.
Qed.

Lemma elem_of_powerset s c : c ∈ powerset s ↔ c `sublist_of` s.
Proof.
  unfold powerset. rewrite list_elem_of_In, in_concat. split.
  - intros (l & Hl & Hc). apply in_map_iff in Hl as (r & <- & _).
    apply list_elem_of_In in Hc.
    by apply elem_of_combinations in Hc as [? _].
  - intros Hsub. exists (combinations s (length c)). split.
    + apply in_map_iff. exists (length c). split; [done|].
      apply in_seq. apply sublist_length in Hsub. lia.
    + apply list_elem_of_In. by apply elem_of_combinations.
Qed.

Lemma combinations_too_long s r :
  (length s < r)%nat → combinations s r = [].
Proof.
  intros Hlt. destruct (combinations s r) as [|c l] eqn:E; [done|].
  assert (c ∈ combinations s r) as Hc by (rewrite E; left).
  apply elem_of_combinations in Hc as [Hsub <-].
  apply sublist_length in Hsub. lia.
Qed.

(** The number of items the chain of the first [k] sizes yields. *)
Lemma chain_length_snoc s k :
  (length (concat (map (λ r, combinations s r) (seq 0 (S k)))) =
   length (concat (map (λ r, combinations s r) (seq 0 k))) +
   length (combinations s k))%nat.
Proof.
  rewrite seq_S, map_app, concat_app, length_app. simpl.
  by rewrite app_nil_r.
Qed.

Lemma chain_length_cons x t k :
  (length (concat (map (λ r, combinations (x :: t) r) (seq 0 (S k)))) =
   length (concat (map (λ r, combinations t r) (seq 0 k))) +
   length (concat (map (λ r, combinations t r) (seq 0 (S k)))))%nat.
Proof.
  induction k as [|k IH].
  - simpl. by rewrite (combinations_0 t).
  - rewrite chain_length_snoc, IH, !(chain_length_snoc t).
    cbn [combinations]. rewrite length_app, length_map. lia.
Qed.

Lemma powerset_length s : (length (powerset s) = 2 ^ length s)%nat.
Proof.
  unfold powerset. induction s as [|x t IH].
  - done.
  - cbn [length]. rewrite Nat.add_1_r in *.
    rewrite chain_length_cons, (chain_length_snoc t (S _)), IH.
    rewrite combinations_too_long by lia. simpl. lia.
Qed.

Lemma combinations_NoDup s r : NoDup s → NoDup (combinations s r).
Proof.
  intros Hs. revert r. induction Hs as [|x t Hx Ht IH]; intros [|r]; simpl;
    try apply NoDup_singleton; [apply NoDup_nil_2|].
  apply NoDup_app. split_and!.
  - apply (NoDup_fmap_2 _), IH.
  - intros c (c' & -> & _)%list_elem_of_fmap [Hc _]%elem_of_combinations.
    apply Hx. apply sublist_subseteq in Hc. apply Hc. left.
  - apply IH.
Qed.

Lemma chain_NoDup s k :
  NoDup s → NoDup (concat (map (λ r, combinations s r) (seq 0 k))).
Proof.
  intros Hs. induction k as [|k IH]; [apply NoDup_nil_2|].
  rewrite seq_S, map_app, concat_app. simpl. rewrite app_nil_r.
  apply NoDup_app. split_and!; [done| |by apply combinations_NoDup].
  intros c Hc [_ Hlen]%elem_of_combinations.
  apply list_elem_of_In, in_concat in Hc as (l & Hl & Hc).
  apply in_map_iff in Hl as (r & <- & Hr%in_seq).
  apply list_elem_of_In, elem_of_combinations in Hc as [_ Hlen']. lia.
Qed.

Lemma powerset_NoDup s : NoDup s → NoDup (powerset s).
Proof. apply chain_NoDup. Qed.
End Combinations.

(** ** Accumulation *)

Section Accumulate.
Context {A B : Type} (func : B → A → B).

Lemma accumulate_length xs initial :
  length (accumulate func xs initial) = S (length xs).
Proof.
  revert initial. induction xs as [|x t IH]; intros initial; simpl; [done|].
  by rewrite IH.
Qed.

Lemma index_neg1_accumulate xs initial :
  index_neg1 (accumulate func xs initial) = Ok (fold_left func xs initial).
Proof.
  revert initial. induction xs as [|x t IH]; intros initial; [done|].
  specialize (IH (func initial x)). simpl in *.
  by destruct t.
Qed.
End Accumulate.

Lemma accumulated_flags_fold combo :
  accumulated_flags combo = Ok (fold_left Z.lor combo 0).
Proof. apply (index_neg1_accumulate (λ sum elem, Z.lor sum elem)). Qed.

Lemma fold_left_lor_testbit combo initial i :
  Z.testbit (fold_left Z.lor combo initial) i =
  Z.testbit initial i || existsb (λ v, Z.testbit v i) combo.
Proof.
  revert initial. induction combo as [|x t IH]; intros initial; simpl.
  - by rewrite orb_false_r.
  - by rewrite IH, Z.lor_spec, orb_assoc.
Qed.

Lemma fold_left_lor_right combo initial :
  fold_left Z.lor combo initial = Z.lor initial (fold_right Z.lor 0 combo).
Proof.
  revert initial. induction combo as [|x t IH]; intros initial; simpl.
  - by rewrite Z.lor_0_r.
  - by rewrite IH, Z.lor_assoc.
Qed.

Lemma fold_left_lor_perm combo combo' initial :
  combo ≡ₚ combo' →
  fold_left Z.lor combo initial = fold_left Z.lor combo' initial.
Proof.
  intros Hp. revert initial.
  induction Hp as [|x l l' _ IH|x y l|l l' l'' _ IH1 _ IH2];
    intros initial; simpl.
  - done.
  - apply IH.
  - f_equal. rewrite <- !Z.lor_assoc. f_equal. apply Z.lor_comm.
  - by rewrite IH1.
Qed.

Lemma fold_left_lor_nonneg combo initial :
  0 ≤ initial → Forall (λ v, 0 ≤ v) combo → 0 ≤ fold_left Z.lor combo initial.
Proof.
  intros Hi Hc. revert initial Hi.
  induction Hc as [|x t Hx _ IH]; intros initial Hi; simpl; [done|].
  apply IH. by apply Z.lor_nonneg.
Qed.

(** C9: the [[-1]] index into the accumulated list never fails.  The list
    starts with the initial value 0, so it has one more item than the
    combination and is never empty; its last item is the fold of the
    combination, which is 0 for the empty combination. *)
Theorem index_neg1_accumulate_never_fails (combo : list Z) :
  accumulate (λ sum elem, Z.lor sum elem) combo 0 ≠ [] ∧
  length (accumulate (λ sum elem, Z.lor sum elem) combo 0)
    = S (length combo) ∧
  accumulated_flags combo = Ok (fold_left Z.lor combo 0) ∧
  accumulated_flags combo ≠ Raise IndexError ∧
  accumulated_flags [] = Ok 0.
Proof.
  pose proof (accumulate_length (λ sum elem, Z.lor sum elem) combo 0) as Hlen.
  split_and!; try done.
  - intros E. by rewrite E in Hlen.
  - apply accumulated_flags_fold.
  - by rewrite accumulated_flags_fold.
Qed.

(** C3: the accumulated value of a combination is the bitwise OR of all its
    values: bit [i] of the result is set exactly when some value of the
    combination has bit [i] set, and the left fold agrees with the right
    fold.  Any reordering of the combination accumulates to the same value. *)
Theorem accumulated_flags_bitwise_or (combo combo' : list Z) :
  combo ≡ₚ combo' →
  ∃ af,
    accumulated_flags combo = Ok af ∧
    accumulated_flags combo' = Ok af ∧
    af = fold_right Z.lor 0 combo ∧
    ∀ i, Z.testbit af i = existsb (λ v, Z.testbit v i) combo.
Proof.
  intros Hp. exists (fold_left Z.lor combo 0). split_and!.
  - apply accumulated_flags_fold.
  - rewrite accumulated_flags_fold. f_equal. symmetry.
    by apply fold_left_lor_perm.
  - by rewrite fold_left_lor_right.
  - intros i. by rewrite fold_left_lor_testbit, Z.bits_0.
Qed.

Lemma accumulated_flags_bitwise_or_witness :
  [1; 4; 256] ≡ₚ [256; 1; 4] ∧
  ∃ af,
    accumulated_flags [1; 4; 256] = Ok af ∧
    accumulated_flags [256; 1; 4] = Ok af ∧
    af = fold_right Z.lor 0 [1; 4; 256] ∧
    ∀ i, Z.testbit af i = existsb (λ v, Z.testbit v i) [1; 4; 256].
Proof.
  assert ([1; 4; 256] ≡ₚ [256; 1; 4]) as Hp.
  { symmetry. apply (Permutation_cons_append [1; 4] 256). }
  split; [exact Hp|].
  exact (accumulated_flags_bitwise_or [1; 4; 256] [256; 1; 4] Hp).
Defined.

Lemma flag_values_eq : flag_values = [1; 2; 4; 256].
Proof. reflexivity. Qed.

Lemma flag_values_NoDup : NoDup flag_values.
Proof. rewrite flag_values_eq. by apply (bool_decide_unpack _). Qed.

(** C2: the power set of the four flag values has exactly 16 items, no two
    of them equal and no two of them with the same accumulated value; its
    items are exactly the subsequences of the flag list; among them are the
    empty combination, which accumulates to 0, and the full one, which
    accumulates to 0x107. *)
Theorem powerset_flag_values :
  length (powerset flag_values) = 16%nat ∧
  NoDup (powerset flag_values) ∧
  (∀ combo, combo ∈ powerset flag_values ↔ combo `sublist_of` flag_values) ∧
  NoDup (map accumulated_flags (powerset flag_values)) ∧
  [] ∈ powerset flag_values ∧
  accumulated_flags [] = Ok 0 ∧
  flag_values ∈ powerset flag_values ∧
  accumulated_flags flag_values = Ok 0x107.
Proof.
  split_and!.
  - by rewrite powerset_length.
  - apply powerset_NoDup, flag_values_NoDup.
  - apply elem_of_powerset.
  - change (NoDup (Ok <$>
      [0; 1; 2; 4; 256; 3; 5; 257; 6; 258; 260; 7; 259; 261; 262; 263])).
    apply NoDup_fmap_2; [by intros ?? [=]|].
    by apply (bool_decide_unpack _).
  - apply elem_of_powerset, sublist_nil_l.
  - done.
  - by apply elem_of_powerset.
  - done.
Qed.

(** ** Hexadecimal rendering *)

Lemma hex_digit_value_upper d :
  (d < 16)%N → hex_digit_value (hex_digit_upper d) = Some d.
Proof.
  intros Hd. destruct d as [|p]; [done|].
  do 4 (destruct p as [p|p|]; try done); lia.
Qed.

Lemma hex_digit_upper_zero d :
  (d < 16)%N → hex_digit_upper d = "0"%char → d = 0%N.
Proof.
  intros Hd. destruct d as [|p]; [done|].
  do 4 (destruct p as [p|p|]; try done); lia.
Qed.

Lemma hex_upper_aux_value fuel n acc :
  (n < 16 ^ N.of_nat fuel)%N →
  hex_value_from 0 (hex_upper_aux fuel n acc) = hex_value_from n acc.
Proof.
  revert n acc. induction fuel as [|fuel IH]; intros n acc Hn.
  - simpl in *. by replace n with 0%N by lia.
  - cbn [hex_upper_aux]. cbv zeta.
    assert (n mod 16 < 16)%N as Hd by (apply N.mod_lt; lia).
    assert (n = 16 * (n / 16) + n mod 16)%N as Hdiv
      by (apply N.div_mod; lia).
    destruct (N.eqb_spec (n / 16) 0) as [Hq|Hq].
    + simpl. rewrite hex_digit_value_upper by done. f_equal. lia.
    + rewrite IH.
      * simpl. rewrite hex_digit_value_upper by done. f_equal. lia.
      * rewrite Nat2N.inj_succ, N.pow_succ_r' in Hn.
        apply N.Div0.div_lt_upper_bound. lia.
Qed.

Lemma hex_upper_aux_head fuel n acc :
  (n < 16 ^ N.of_nat fuel)%N → n ≠ 0%N →
  ∃ c rest, hex_upper_aux fuel n acc = String c rest ∧ c ≠ "0"%char.
Proof.
  revert n acc. induction fuel as [|fuel IH]; intros n acc Hn Hnz.
  - simpl in Hn. lia.
  - cbn [hex_upper_aux]. cbv zeta.
    assert (n mod 16 < 16)%N as Hd by (apply N.mod_lt; lia).
    assert (n = 16 * (n / 16) + n mod 16)%N as Hdiv
      by (apply N.div_mod; lia).
    destruct (N.eqb_spec (n / 16) 0) as [Hq|Hq].
    + eexists _, _. split; [done|].
      intros Hz%hex_digit_upper_zero; [lia|done].
    + apply IH; [|done].
      rewrite Nat2N.inj_succ, N.pow_succ_r' in Hn.
      apply N.Div0.div_lt_upper_bound. lia.
Qed.

Lemma hex_upper_fuel n : (n < 16 ^ N.of_nat (S (N.to_nat (N.log2 n))))%N.
Proof.
  rewrite Nat2N.inj_succ, N2Nat.id.
  destruct (N.eq_dec n 0%N) as [->|Hn]; [done|].
  pose proof (N.log2_spec n ltac:(lia)) as [_ Hlt].
  eapply N.lt_le_trans; [exact Hlt|].
  apply N.pow_le_mono_l. lia.
Qed.

Lemma hex_upper_aux_nonempty fuel n acc :
  acc ≠ EmptyString → hex_upper_aux fuel n acc ≠ EmptyString.
Proof.
  revert n acc. induction fuel as [|fuel IH]; intros n acc Hacc; [done|].
  simpl. destruct (n / 16 =? 0)%N; [done|]. by apply IH.
Qed.

Lemma hex_upper_nonempty n : hex_upper n ≠ EmptyString.
Proof.
  unfold hex_upper. cbn [hex_upper_aux]. cbv zeta.
  destruct (n / 16 =? 0)%N; [done|]. by apply hex_upper_aux_nonempty.
Qed.

Lemma hex_value_hex_upper n : hex_value (hex_upper n) = Some n.
Proof.
  pose proof (hex_upper_nonempty n) as Hne.
  unfold hex_value. destruct (hex_upper n) eqn:E; [done|].
  rewrite <- E. unfold hex_upper.
  by rewrite hex_upper_aux_value by apply hex_upper_fuel.
Qed.

Lemma hex_upper_head n :
  n ≠ 0%N → ∃ c rest, hex_upper n = String c rest ∧ c ≠ "0"%char.
Proof. intros Hn. by apply hex_upper_aux_head; [apply hex_upper_fuel|]. Qed.

Lemma format_X_nonneg af : 0 ≤ af → format_X af = hex_upper (Z.to_N af).
Proof. intros Haf. unfold format_X. by destruct (Z.ltb_spec af 0); [lia|]. Qed.

Lemma string_append_empty_r s : s +:+ "" = s.
Proof.
  induction s as [|c s IH]; [done|].
  change (String c (s +:+ "") = String c s). by f_equal.
Qed.

Lemma str_format_name format af :
  str_format "{}_{:X}.bsa" [PStr format; PInt af] =
  Ok (format +:+ "_" +:+ format_X af +:+ ".bsa").
Proof. reflexivity. Qed.

Lemma str_format_selector format :
  str_format "-{}" [PStr format] = Ok ("-" +:+ format).
Proof. unfold str_format. simpl. by rewrite string_append_empty_r. Qed.

Lemma str_format_flags af :
  str_format "-af:0x{:X}" [PInt af] = Ok ("-af:0x" +:+ format_X af).
Proof. unfold str_format. simpl. by rewrite string_append_empty_r. Qed.

(** C4: the output name is the format, an underscore, the flags in upper-case
    hexadecimal and the extension.  The hexadecimal numeral reads back as the
    flags value with digits [0-9A-F] only, and has no leading zero: it is
    either the single digit 0 or starts with a non-zero digit. *)
Theorem output_filename (format : string) (af : Z) :
  0 ≤ af →
  str_format "{}_{:X}.bsa" [PStr format; PInt af] =
    Ok (format +:+ "_" +:+ format_X af +:+ ".bsa") ∧
  hex_value (format_X af) = Some (Z.to_N af) ∧
  (af = 0 ∧ format_X af = "0" ∨
   af ≠ 0 ∧ ∃ c rest, format_X af = String c rest ∧ c ≠ "0"%char) ∧
  str_format "{}_{:X}.bsa" [PStr "tes5"; PInt 0x107] = Ok "tes5_107.bsa" ∧
  str_format "{}_{:X}.bsa" [PStr format; PInt 0] = Ok (format +:+ "_0.bsa").
Proof.
  intros Haf. split_and!; try done.
  - rewrite format_X_nonneg by done. apply hex_value_hex_upper.
  - destruct (decide (af = 0)) as [->|Hnz]; [by left|right].
    split; [done|]. rewrite format_X_nonneg by done.
    apply hex_upper_head. lia.
Qed.

Lemma output_filename_witness :
  0 ≤ 0x107 ∧
  str_format "{}_{:X}.bsa" [PStr "sse"; PInt 0x107] = Ok "sse_107.bsa" ∧
  hex_value (format_X 0x107) = Some 263%N.
Proof.
  assert (0 ≤ 0x107) as Haf by (vm_compute; discriminate).
  split; [exact Haf|].
  destruct (output_filename "sse" 0x107 Haf) as (Hname & Hval & _).
  split; [exact Hname|exact Hval].
Defined.

(** ** The archiver calls *)

Section Calls.
Context (spawn : gmap string node → string → list string → spawned).

Lemma subprocess_run_check args w :
  ∃ c, calls (subprocess_run spawn args true w).2 = calls w ++ [c] ∧
       cwd (subprocess_run spawn args true w).2 = cwd w ∧
       call_cwd c = cwd w ∧
       call_args c = args ∧
       fail_fast (subprocess_run spawn args true w).1 [c].
Proof.
  unfold subprocess_run.
  destruct (spawn (fs w) (cwd w) args) as [|returncode fs'] eqn:E.
  - eexists. simpl. split_and!; try done; [by left|by eexists [], _].
  - destruct (Z.eqb_spec returncode 0) as [->|Hrc]; simpl.
    + eexists. split_and!; try done. by repeat constructor.
    + eexists. split_and!; try done; [right; eauto|].
      eexists [], _. split_and!; try done.
      unfold call_failed; simpl. by apply negb_true_iff, Z.eqb_neq.
Qed.

Lemma pack_run a_args format combo :
  pack spawn a_args format combo =
  subprocess_run spawn (pack_args a_args format (flags_of combo)) true.
Proof.
  unfold pack, flags_of. rewrite accumulated_flags_fold.
  unfold bind, lift at 1. cbv beta iota.
  rewrite str_format_name, str_format_selector, str_format_flags.
  unfold lift. reflexivity.
Qed.

Lemma for_iterator_pack a_args format it w :
  let rw := for_iterator it (λ combo, pack spawn a_args format combo) w in
  ∃ new,
    calls rw.2 = calls w ++ new ∧
    cwd rw.2 = cwd w ∧
    Forall (λ c, call_cwd c = cwd w) new ∧
    map call_args new =
      take (length new)
        (map (λ combo, pack_args a_args format (flags_of combo)) it) ∧
    fail_fast rw.1 new ∧
    (∀ it', rw.1 = Ok it' → it' = [] ∧ length new = length it).
Proof.
  revert w. induction it as [|combo it IH]; intros w; simpl.
  - exists []. rewrite app_nil_r. split_and!; try done.
    + by intros it' [= <-].
  - unfold bind. rewrite pack_run.
    destruct (subprocess_run_check
                (pack_args a_args format (flags_of combo)) w)
      as (c & Hcalls & Hcwd & Hc1 & Hc2 & Hff).
    destruct (subprocess_run spawn _ true w) as [[[]|e] w1]; simpl in *.
    + destruct (IH w1)
        as (new & Hcalls' & Hcwd' & Hdirs & Hargs & Hff' & Hok).
      exists (c :: new). split_and!.
      * by rewrite Hcalls', Hcalls, <- app_assoc.
      * congruence.
      * constructor; [done|]. by rewrite <- Hcwd.
      * simpl. by rewrite Hc2, Hargs.
      * destruct (for_iterator it _ w1).1 as [it'|e]; simpl in *.
        -- by constructor; [by inversion Hff|].
        -- destruct Hff' as (He & pre & c' & -> & Hpre & Hc').
           split; [done|]. exists (c :: pre), c'.
           split_and!; try done. constructor; [by inversion Hff|done].
      * intros it' Hit'. destruct (Hok it' Hit') as [-> Hlen].
        simpl. by rewrite Hlen.
    + exists [c]. split_and!; try done; try apply Hff.
      * by constructor.
      * simpl. by rewrite Hc2.
Qed.

Lemma for_iterator_pack_ok a_args format it w :
  (∀ m dir args, ∃ m', spawn m dir args = Exited 0 m') →
  (for_iterator it (λ combo, pack spawn a_args format combo) w).1 = Ok [].
Proof.
  intros Hspawn. revert w. induction it as [|combo it IH]; intros w; [done|].
  simpl. unfold bind. rewrite pack_run. unfold subprocess_run.
  destruct (Hspawn (fs w) (cwd w)
              (pack_args a_args format (flags_of combo))) as [m' ->].
  simpl. apply IH.
Qed.

Lemma combinate_first_format a_args w :
  combinate spawn a_args w =
  let rw := for_iterator (powerset flag_values)
              (λ combo, pack spawn a_args "tes4" combo) w in
  (match rw.1 with Ok _ => Ok tt | Raise e => Raise e end, rw.2).
Proof.
  unfold combinate, formats. generalize (powerset flag_values) as it.
  intros it. cbn [for_in]. unfold bind at 1 2. cbv zeta.
  pose proof (for_iterator_pack a_args "tes4" it w)
    as (new & _ & _ & _ & _ & _ & Hit).
  revert Hit. cbv zeta.
  destruct (for_iterator it _ w) as [[it'|e] w1]; simpl; [|done].
  intros Hit. by destruct (Hit it' eq_refl) as [-> _].
Qed.

Lemma combinate_trace a_args w :
  let rw := combinate spawn a_args w in
  ∃ new,
    calls rw.2 = calls w ++ new ∧
    cwd rw.2 = cwd w ∧
    new ≠ [] ∧
    Forall (λ c, call_cwd c = cwd w) new ∧
    map call_args new = take (length new) (tes4_args a_args) ∧
    fail_fast rw.1 new.
Proof.
  rewrite combinate_first_format. cbv zeta.
  destruct (for_iterator_pack a_args "tes4" (powerset flag_values) w)
    as (new & Hcalls & Hcwd & Hdirs & Hargs & Hff & Hit).
  revert Hcalls Hcwd Hff Hit. cbv zeta.
  destruct (for_iterator (powerset flag_values) _ w) as [r w'].
  cbn [fst snd]. intros Hcalls Hcwd Hff Hit.
  exists new. split_and!; try done.
  - destruct r as [it'|e].
    + destruct (Hit it' eq_refl) as [_ Hlen].
      rewrite powerset_length in Hlen. by destruct new.
    + destruct Hff as (_ & pre & c & -> & _). by destruct pre.
  - destruct r; exact Hff.
Qed.

Lemma combinate_all_succeed a_args w :
  (∀ m dir args, ∃ m', spawn m dir args = Exited 0 m') →
  (combinate spawn a_args w).1 = Ok tt ∧
  ∃ new,
    calls (combinate spawn a_args w).2 = calls w ++ new ∧
    length new = 16%nat ∧
    map call_args new = tes4_args a_args ∧
    Forall (λ c, call_args c !! 4%nat = Some "-tes4") new.
Proof.
  intros Hspawn.
  pose proof (for_iterator_pack_ok a_args "tes4"
                (powerset flag_values) w Hspawn) as Hok.
  destruct (combinate_trace a_args w)
    as (new & Hcalls & _ & _ & _ & Hargs & _).
  pose proof (for_iterator_pack a_args "tes4" (powerset flag_values) w)
    as (new' & Hcalls' & _ & _ & _ & _ & Hit).
  cbv zeta in Hit. destruct (Hit [] Hok) as [_ Hlen].
  rewrite combinate_first_format in *. cbv zeta in *. cbn [fst snd] in *.
  rewrite Hcalls' in Hcalls. apply app_inv_head in Hcalls as ->.
  rewrite Hok. split; [done|]. exists new.
  rewrite powerset_length in Hlen.
  rewrite take_ge in Hargs
    by (unfold tes4_args; rewrite length_map, powerset_length; lia).
  split_and!; [done..|].
  apply Forall_forall. intros c Hc%list_elem_of_In%(in_map call_args).
  rewrite Hargs in Hc. by apply in_map_iff in Hc as (combo & <- & _).
Qed.

Context (script_dir : string)
        (parse_args : list string → result Namespace).

Lemma main_started argv w a_args :
  let home := os_path_join (cwd w) script_dir in
  let bin := os_path_join home "bin" in
  parse_args argv = Ok a_args →
  fs w !! home = Some Directory →
  fs w !! bin ≠ Some RegularFile →
  main spawn script_dir parse_args argv w =
  combinate spawn a_args (started w bin).
Proof.
  intros home bin Hparse Hhome Hbin. unfold main, bind, lift.
  rewrite Hparse. unfold os_chdir at 1. fold home. rewrite Hhome.
  unfold os_makedirs. cbn [cwd fs set_cwd]. fold bin.
  unfold started.
  destruct (fs w !! bin) as [[]|] eqn:E; [|done|].
  - unfold os_chdir. cbn [cwd fs set_cwd]. fold bin. by rewrite E.
  - unfold os_chdir. cbn [cwd fs set_cwd set_fs]. fold bin.
    by rewrite lookup_insert_eq.
Qed.

Lemma main_not_started argv w :
  let home := os_path_join (cwd w) script_dir in
  let bin := os_path_join home "bin" in
  (∃ e, parse_args argv = Raise e) ∨
  fs w !! home ≠ Some Directory ∨
  fs w !! bin = Some RegularFile →
  ∃ e w', main spawn script_dir parse_args argv w = (Raise e, w') ∧
          calls w' = calls w.
Proof.
  intros home bin Hcase. unfold main, bind, lift.
  destruct (parse_args argv) as [a_args|e]; [|by eauto].
  unfold os_chdir at 1. fold home.
  destruct (fs w !! home) as [[]|] eqn:Hhome; [|by eauto..].
  destruct Hcase as [[e [=]]|[?|Hbin]]; [done|].
  unfold os_makedirs. cbn [cwd fs set_cwd]. fold bin. rewrite Hbin.
  by eauto.
Qed.

Lemma main_trace argv w :
  let rw := main spawn script_dir parse_args argv w in
  let home := os_path_join (cwd w) script_dir in
  let bin := os_path_join home "bin" in
  ∃ new,
    calls rw.2 = calls w ++ new ∧
    ((new = [] ∧ ∃ e, rw.1 = Raise e) ∨
     (∃ a_args,
        parse_args argv = Ok a_args ∧
        fs w !! home = Some Directory ∧
        fs w !! bin ≠ Some RegularFile ∧
        new ≠ [] ∧
        cwd rw.2 = bin ∧
        Forall (λ c, call_cwd c = bin) new ∧
        map call_args new = take (length new) (tes4_args a_args) ∧
        fail_fast rw.1 new)).
Proof.
  intros rw home bin. subst rw.
  destruct (parse_args argv) as [a_args|e] eqn:Hparse;
    [destruct (decide (fs w !! home = Some Directory)) as [Hhome|Hhome];
     [destruct (decide (fs w !! bin = Some RegularFile)) as [Hbin|Hbin]|]|].
  2: { rewrite (main_started argv w a_args) by done. fold home bin.
       destruct (combinate_trace a_args (started w bin))
         as (new & Hcalls & Hcwd & Hne & Hdirs & Hargs & Hff).
       exists new. split; [done|]. right. exists a_args. by split_and!. }
  all: destruct (main_not_started argv w) as (e' & w' & -> & Hcalls);
    [rewrite ?Hparse; by eauto|].
  all: exists []; rewrite app_nil_r; by eauto.
Qed.

Lemma exit_status_run_error e : run_error e → exit_status (Raise e) = 1.
Proof. by intros [->|(rc & cmd & _ & ->)]. Qed.
End Calls.

(** ** Flags values are submasks of 0x107 *)

Lemma fold_left_lor_submask mask combo initial :
  Z.lor initial mask = mask →
  Forall (λ v, Z.lor v mask = mask) combo →
  Z.lor (fold_left Z.lor combo initial) mask = mask.
Proof.
  intros Hi Hc. revert initial Hi.
  induction Hc as [|v t Hv _ IH]; intros initial Hi; simpl; [done|].
  apply IH. by rewrite <- Z.lor_assoc, Hv.
Qed.

Lemma flag_values_submask :
  Forall (λ v, 0 ≤ v ∧ Z.lor v 0x107 = 0x107) flag_values.
Proof. rewrite flag_values_eq. by repeat constructor. Qed.

Lemma flags_of_submask combo :
  combo ∈ powerset flag_values →
  0 ≤ flags_of combo ∧ Z.lor (flags_of combo) 0x107 = 0x107.
Proof.
  intros Hsub%elem_of_powerset%sublist_subseteq.
  assert (Forall (λ v, 0 ≤ v ∧ Z.lor v 0x107 = 0x107) combo) as Hc.
  { apply Forall_forall. intros v Hv%Hsub.
    by apply (proj1 (Forall_forall _ _) flag_values_submask). }
  split.
  - apply fold_left_lor_nonneg; [done|]. eapply Forall_impl; [exact Hc|].
    by intros v [? _].
  - apply fold_left_lor_submask; [done|]. eapply Forall_impl; [exact Hc|].
    by intros v [_ ?].
Qed.

Lemma submask_bits af i :
  Z.lor af 0x107 = 0x107 → Z.testbit af i = true → i ∈ [0; 1; 2; 8].
Proof.
  intros Hmask Hbit.
  assert (Z.testbit 0x107 i = true) as H107.
  { by rewrite <- Hmask, Z.lor_spec, Hbit. }
  destruct (Z.ltb_spec i 0) as [Hneg|Hpos].
  { by rewrite Z.testbit_neg_r in H107. }
  destruct (Z.ltb_spec i 9) as [Hlt|Hge].
  - assert (i = 0 ∨ i = 1 ∨ i = 2 ∨ i = 3 ∨ i = 4 ∨ i = 5 ∨ i = 6 ∨
            i = 7 ∨ i = 8) as Hi by lia.
    destruct_or!; subst i; try discriminate H107; set_solver.
  - rewrite Z.bits_above_log2 in H107; [done|done|].
    change (Z.log2 0x107) with 8. lia.
Qed.

Lemma call_args_expected (new : list call) (expected : list (list string)) :
  map call_args new = take (length new) expected →
  Forall (λ c, call_args c ∈ expected) new.
Proof.
  intros Hargs. apply Forall_forall. intros c Hc.
  apply (subseteq_take (length new)). rewrite <- Hargs.
  by apply list_elem_of_In, in_map, list_elem_of_In.
Qed.

Lemma elem_of_tes4_args a_args args :
  args ∈ tes4_args a_args →
  ∃ combo, combo ∈ powerset flag_values ∧
           args = pack_args a_args "tes4" (flags_of combo).
Proof.
  intros (combo & <- & Hc)%list_elem_of_In%in_map_iff.
  exists combo. by split; [apply list_elem_of_In|].
Qed.

Lemma fail_fast_last {R} (r : result R) new pre c post :
  fail_fast r new →
  new = pre ++ c :: post →
  call_failed c = true →
  post = [] ∧
  Forall (λ c', call_failed c' = false) pre ∧
  ∃ e, r = Raise e ∧ run_error e.
Proof.
  intros Hff -> Hc. destruct r as [a|e]; simpl in Hff.
  - apply Forall_app in Hff as [_ Hff]. inversion Hff; congruence.
  - destruct Hff as (He & pre' & c' & Heq & Hpre' & _).
    destruct post as [|x post _] using rev_ind.
    + apply app_inj_tail in Heq as [-> _]. eauto.
    + rewrite app_comm_cons, app_assoc in Heq.
      apply app_inj_tail in Heq as [<- _].
      apply Forall_app in Hpre' as [_ Hpre']. inversion Hpre'; congruence.
Qed.

Lemma os_path_join_absolute dir path :
  String.prefix "/" path = true → os_path_join dir path = path.
Proof. intros Habs. unfold os_path_join. by rewrite Habs. Qed.

Lemma archiver_writes_exits_0 m dir args :
  ∃ m', archiver_writes m dir args = Exited 0 m'.
Proof. unfold archiver_writes. destruct (args !! 3%nat); eauto. Qed.

Section Claims.
Context (spawn : gmap string node → string → list string → spawned)
        (script_dir : string)
        (parse_args : list string → result Namespace).

Lemma script_main argv w :
  script spawn script_dir parse_args argv w =
  (exit_status (main spawn script_dir parse_args argv w).1,
   (main spawn script_dir parse_args argv w).2).
Proof. unfold script. by destruct (main _ _ _ _ _). Qed.

(** C5: every archiver call of a run passes exactly six arguments: the
    archiver path, [pack], the source directory, the output name
    [{format}_{flags:X}.bsa], the selector [-{format}] for one of the
    three formats, and [-af:0x{flags:X}]. *)
Theorem every_call_passes_six_arguments argv w :
  ∃ new,
    calls (script spawn script_dir parse_args argv w).2 = calls w ++ new ∧
    Forall (λ c,
      length (call_args c) = 6%nat ∧
      ∃ a_args format af,
        parse_args argv = Ok a_args ∧
        format ∈ ["tes4"; "tes5"; "sse"] ∧
        call_args c =
          [ bsarch a_args; "pack"; directory a_args;
            format +:+ "_" +:+ format_X af +:+ ".bsa";
            "-" +:+ format;
            "-af:0x" +:+ format_X af ]) new.
Proof.
  rewrite script_main. cbn [snd].
  destruct (main_trace spawn script_dir parse_args argv w)
    as (new & Hcalls & Hcase).
  exists new. split; [done|].
  destruct Hcase
  as [[-> _]|(a_args & Hparse & _ & _ & _ & _ & _ & Hargs & _)];
    [by constructor|].
  eapply Forall_impl; [by apply call_args_expected|].
  intros c (combo & _ & ->)%elem_of_tes4_args. split; [done|].
  exists a_args, "tes4", (flags_of combo). split_and!; [done|set_solver|done].
Qed.

(** C10: the flags value passed in the [-af] argument of every call is a
    submask of 0x107: only bits 0, 1, 2 and 8 can be set. *)
Theorem every_call_flags_submask argv w :
  ∃ new,
    calls (script spawn script_dir parse_args argv w).2 = calls w ++ new ∧
    Forall (λ c,
      ∃ af,
        call_args c !! 5%nat = Some ("-af:0x" +:+ format_X af) ∧
        0 ≤ af ∧
        Z.lor af 0x107 = 0x107 ∧
        ∀ i, Z.testbit af i = true → i ∈ [0; 1; 2; 8]) new.
Proof.
  rewrite script_main. cbn [snd].
  destruct (main_trace spawn script_dir parse_args argv w)
    as (new & Hcalls & Hcase).
  exists new. split; [done|].
  destruct Hcase
  as [[-> _]|(a_args & Hparse & _ & _ & _ & _ & _ & Hargs & _)];
    [by constructor|].
  eapply Forall_impl; [by apply call_args_expected|].
  intros c (combo & [Hpos Hmask]%flags_of_submask & ->)%elem_of_tes4_args.
  exists (flags_of combo). split_and!; try done.
  intros i. by apply submask_bits.
Qed.
(** C6: a failed archiver call (the program could not be started, or exited
    with a status other than 0) is the last call of the run: every call
    before it succeeded, none follows it, and the process ends with the
    non-zero exit status 1. *)
Theorem failed_call_aborts_run argv w pre c post :
  calls (script spawn script_dir parse_args argv w).2
    = calls w ++ pre ++ c :: post →
  call_failed c = true →
  post = [] ∧
  Forall (λ c', call_failed c' = false) pre ∧
  (script spawn script_dir parse_args argv w).1 = 1 ∧
  (script spawn script_dir parse_args argv w).1 ≠ 0.
Proof.
  rewrite script_main. cbn [fst snd]. intros Hlog Hc.
  destruct (main_trace spawn script_dir parse_args argv w) as (new & Hcalls & Hcase).
  rewrite Hcalls in Hlog. apply app_inv_head in Hlog as ->.
  destruct Hcase as [[Hnil _]|(a_args & _ & _ & _ & _ & _ & _ & _ & Hff)].
  { by destruct pre. }
  destruct (fail_fast_last _ _ pre c post Hff eq_refl Hc)
    as (-> & Hpre & e & -> & He).
  rewrite (exit_status_run_error e He). by split_and!.
Qed.

(** C8: the invocation loop leaves the working directory alone: neither one
    job nor the whole of [combinate] changes it, every call of [combinate]
    is started in the directory [combinate] was entered with, and in a run
    of [main] every call is started in the directory the run ends in. *)
Theorem loop_keeps_working_directory a_args argv w :
  cwd (combinate spawn a_args w).2 = cwd w ∧
  (∀ format combo w0, cwd (pack spawn a_args format combo w0).2 = cwd w0) ∧
  (∃ new,
     calls (combinate spawn a_args w).2 = calls w ++ new ∧
     Forall (λ c, call_cwd c = cwd w) new) ∧
  (∃ new,
     calls (main spawn script_dir parse_args argv w).2 = calls w ++ new ∧
     Forall (λ c,
       call_cwd c = cwd (main spawn script_dir parse_args argv w).2) new).
Proof.
  destruct (combinate_trace spawn a_args w)
    as (new & Hcalls & Hcwd & _ & Hdirs & _).
  split_and!; [done| |by eauto|].
  - intros format combo w0. rewrite pack_run.
    by destruct (subprocess_run_check spawn
                   (pack_args a_args format (flags_of combo)) w0)
      as (c & _ & ? & _).
  - destruct (main_trace spawn script_dir parse_args argv w) as (new' & Hcalls' & Hcase).
    exists new'. split; [done|].
    destruct Hcase as [[-> _]|(_ & _ & _ & _ & _ & -> & ? & _)];
      [by constructor|done].
Qed.

(** C7: with the script at the absolute location [script_dir], every archiver
    call is started in [script_dir/bin] with a relative output name.  A call
    is only made after start-up succeeded, and then [main] enters
    [combinate] in a world whose working directory is [bin], where [bin] is
    a directory: the one that was there already, or else a new one, and
    where no call has been made so far. *)
Theorem main_enters_bin argv w :
  String.prefix "/" script_dir = true →
  let bin := os_path_join script_dir "bin" in
  let rw := main spawn script_dir parse_args argv w in
  (∃ new,
     calls rw.2 = calls w ++ new ∧
     Forall (λ c,
       call_cwd c = bin ∧
       ∃ name, call_args c !! 3%nat = Some name ∧
               String.prefix "/" name = false) new ∧
     (new ≠ [] →
      ∃ a_args, parse_args argv = Ok a_args ∧
                fs w !! script_dir = Some Directory ∧
                fs w !! bin ≠ Some RegularFile)) ∧
  (∀ a_args,
     parse_args argv = Ok a_args →
     fs w !! script_dir = Some Directory →
     fs w !! bin ≠ Some RegularFile →
     rw = combinate spawn a_args (started w bin)) ∧
  cwd (started w bin) = bin ∧
  calls (started w bin) = calls w ∧
  (fs w !! bin ≠ Some RegularFile →
   fs (started w bin) !! bin = Some Directory) ∧
  (fs w !! bin = Some Directory → fs (started w bin) = fs w) ∧
  (fs w !! bin = None →
   fs (started w bin) = <[bin := Directory]> (fs w)).
Proof.
  intros Habs bin rw. subst rw.
  pose proof (os_path_join_absolute (cwd w) script_dir Habs) as Hhome.
  split_and!.
  - destruct (main_trace spawn script_dir parse_args argv w) as (new & Hcalls & Hcase).
    rewrite Hhome in Hcase. fold bin in Hcase.
    exists new. split; [done|].
    destruct Hcase
      as [[-> _]|(a_args & Hparse & Hdir & Hbin & _ & _ & Hdirs & Hargs & _)].
    { split; [by constructor|done]. }
    split; [|by eauto].
    apply call_args_expected in Hargs.
    apply Forall_forall. intros c Hc.
    split; [by apply (proj1 (Forall_forall _ _) Hdirs)|].
    apply (proj1 (Forall_forall _ _) Hargs) in Hc.
    apply elem_of_tes4_args in Hc as (combo & _ & ->).
    by eexists.
  - intros a_args Hparse Hdir Hbin.
    rewrite (main_started spawn script_dir parse_args argv w a_args);
      rewrite ?Hhome; done.
  - done.
  - done.
  - intros Hbin. unfold started; simpl.
    destruct (fs w !! bin) as [[]|] eqn:E; [done..|].
    by rewrite lookup_insert_eq.
  - intros Hbin. unfold started; simpl. by rewrite Hbin.
  - intros Hbin. unfold started; simpl. by rewrite Hbin.
Qed.
End Claims.

(** ** Runs in the example environments *)

(** C1 (fails on the code): with an archiver that always succeeds, a run
    makes 16 calls, not 48.  All of them are for the first format, [tes4],
    one per flag combination: the inner loop of [tes4] exhausts the shared
    iterator, so the loops of [tes5] and [sse] find nothing left. *)
Theorem combinate_runs_first_format_only (a_args : Namespace) (w : World) :
  (combinate archiver_writes a_args w).1 = Ok tt ∧
  (∃ new,
     calls (combinate archiver_writes a_args w).2 = calls w ++ new ∧
     length new = 16%nat ∧
     map call_args new =
       map (λ combo, pack_args a_args "tes4" (flags_of combo))
         (powerset flag_values) ∧
     Forall (λ c, call_args c !! 4%nat = Some "-tes4") new) ∧
  (script archiver_writes "/repo/scripts" two_positionals
     example_argv example_world).1 = 0 ∧
  map call_args
    (calls (script archiver_writes "/repo/scripts" two_positionals
              example_argv example_world).2) =
    [ ["bsarch.exe"; "pack"; "data"; "tes4_0.bsa"; "-tes4"; "-af:0x0"];
      ["bsarch.exe"; "pack"; "data"; "tes4_1.bsa"; "-tes4"; "-af:0x1"];
      ["bsarch.exe"; "pack"; "data"; "tes4_2.bsa"; "-tes4"; "-af:0x2"];
      ["bsarch.exe"; "pack"; "data"; "tes4_4.bsa"; "-tes4"; "-af:0x4"];
      ["bsarch.exe"; "pack"; "data"; "tes4_100.bsa"; "-tes4"; "-af:0x100"];
      ["bsarch.exe"; "pack"; "data"; "tes4_3.bsa"; "-tes4"; "-af:0x3"];
      ["bsarch.exe"; "pack"; "data"; "tes4_5.bsa"; "-tes4"; "-af:0x5"];
      ["bsarch.exe"; "pack"; "data"; "tes4_101.bsa"; "-tes4"; "-af:0x101"];
      ["bsarch.exe"; "pack"; "data"; "tes4_6.bsa"; "-tes4"; "-af:0x6"];
      ["bsarch.exe"; "pack"; "data"; "tes4_102.bsa"; "-tes4"; "-af:0x102"];
      ["bsarch.exe"; "pack"; "data"; "tes4_104.bsa"; "-tes4"; "-af:0x104"];
      ["bsarch.exe"; "pack"; "data"; "tes4_7.bsa"; "-tes4"; "-af:0x7"];
      ["bsarch.exe"; "pack"; "data"; "tes4_103.bsa"; "-tes4"; "-af:0x103"];
      ["bsarch.exe"; "pack"; "data"; "tes4_105.bsa"; "-tes4"; "-af:0x105"];
      ["bsarch.exe"; "pack"; "data"; "tes4_106.bsa"; "-tes4"; "-af:0x106"];
      ["bsarch.exe"; "pack"; "data"; "tes4_107.bsa"; "-tes4"; "-af:0x107"] ].
Proof.
  split_and!; [| |vm_compute; reflexivity..].
  - apply (combinate_all_succeed archiver_writes a_args w
             archiver_writes_exits_0).
  - apply (combinate_all_succeed archiver_writes a_args w
             archiver_writes_exits_0).
Qed.

Lemma failed_call_aborts_run_witness :
  let run := script (archiver_failing_on "tes4_4.bsa") "/repo/scripts"
               two_positionals example_argv example_world in
  let call args status :=
    {| call_cwd := "/repo/scripts/bin"; call_args := args;
       call_status := Some status |} in
  let pre :=
    [ call ["bsarch.exe"; "pack"; "data"; "tes4_0.bsa"; "-tes4"; "-af:0x0"] 0;
      call ["bsarch.exe"; "pack"; "data"; "tes4_1.bsa"; "-tes4"; "-af:0x1"] 0;
      call ["bsarch.exe"; "pack"; "data"; "tes4_2.bsa"; "-tes4"; "-af:0x2"] 0 ] in
  let c :=
    call ["bsarch.exe"; "pack"; "data"; "tes4_4.bsa"; "-tes4"; "-af:0x4"] 1 in
  calls run.2 = calls example_world ++ pre ++ [c] ∧
  call_failed c = true ∧
  run.1 = 1.
Proof.
  intros run call pre c.
  assert (calls run.2 = calls example_world ++ pre ++ [c]) as Hlog
    by (vm_compute; reflexivity).
  assert (call_failed c = true) as Hc by reflexivity.
  split; [exact Hlog|]. split; [exact Hc|].
  exact (proj1 (proj2 (proj2
    (failed_call_aborts_run (archiver_failing_on "tes4_4.bsa")
       "/repo/scripts" two_positionals example_argv example_world
       pre c [] Hlog Hc)))).
Defined.

Lemma main_enters_bin_witness :
  String.prefix "/" "/repo/scripts" = true ∧
  ∃ new,
    calls (main archiver_writes "/repo/scripts" two_positionals
             example_argv example_world).2 = calls example_world ++ new ∧
    Forall (λ c,
      call_cwd c = "/repo/scripts/bin" ∧
      ∃ name, call_args c !! 3%nat = Some name ∧
              String.prefix "/" name = false) new.
Proof.
  assert (String.prefix "/" "/repo/scripts" = true) as Habs by reflexivity.
  split; [exact Habs|].
  destruct (main_enters_bin archiver_writes "/repo/scripts" two_positionals
              example_argv example_world Habs)
    as [(new & Hcalls & Hdirs & _) _].
  exists new. split; [exact Hcalls|exact Hdirs].
Defined.

(** Without a program at the archiver path the run stops at the first call
    and the process ends with status 1. *)
Example run_without_archiver :
  script no_archiver "/repo/scripts" two_positionals
    example_argv example_world =
  (1,
   {| cwd := "/repo/scripts/bin";
      fs := <["/repo/scripts/bin" := Directory]> (fs example_world);
      calls :=
        [ {| call_cwd := "/repo/scripts/bin";
             call_args :=
               ["bsarch.exe"; "pack"; "data"; "tes4_0.bsa"; "-tes4";
                "-af:0x0"];
             call_status := None |} ] |}).
Proof. reflexivity. Qed.

(** ** More on [powerset] *)

Section PowersetOrder.
Context {A : Type}.
Implicit Types (s t c d : list A) (x : A) (r k i j : nat).

Lemma combinations_all s : combinations s (length s) = [s].
Proof.
  induction s as [|x t IH]; [done|].
  cbn [length combinations]. rewrite IH.
  by rewrite (combinations_too_long t (S (length t))) by lia.
Qed.

Lemma chain_snoc s k :
  concat (map (λ r, combinations s r) (seq 0 (S k))) =
  concat (map (λ r, combinations s r) (seq 0 k)) ++ combinations s k.
Proof.
  rewrite seq_S, map_app, concat_app. simpl. by rewrite app_nil_r.
Qed.

Lemma chain_sizes s k c :
  c ∈ concat (map (λ r, combinations s r) (seq 0 k)) → (length c < k)%nat.
Proof.
  intros Hc. apply list_elem_of_In, in_concat in Hc as (l & Hl & Hc).
  apply in_map_iff in Hl as (r & <- & Hr%in_seq).
  apply list_elem_of_In, elem_of_combinations in Hc as [_ Hlen]. lia.
Qed.

Lemma chain_ordered s k i j c d :
  concat (map (λ r, combinations s r) (seq 0 k)) !! i = Some c →
  concat (map (λ r, combinations s r) (seq 0 k)) !! j = Some d →
  (i ≤ j)%nat →
  (length c ≤ length d)%nat.
Proof.
  revert i j c d. induction k as [|k IH]; intros i j c d; [done|].
  rewrite chain_snoc, !lookup_app_Some.
  intros [Hc|[Hi Hc]] [Hd|[Hj Hd]] Hij.
  - by eapply IH.
  - apply list_elem_of_lookup_2, chain_sizes in Hc.
    apply list_elem_of_lookup_2, elem_of_combinations in Hd as [_ ->]. lia.
  - apply lookup_lt_Some in Hd. lia.
  - apply list_elem_of_lookup_2, elem_of_combinations in Hc as [_ ->].
    apply list_elem_of_lookup_2, elem_of_combinations in Hd as [_ ->]. done.
Qed.

(** X1: for every input list, [powerset] yields [2 ^ len] items; they are
    exactly the subsequences of the input; and when the input has no
    repeated item no subsequence is yielded twice. *)
Theorem powerset_yields_subsequences s :
  length (powerset s) = (2 ^ length s)%nat ∧
  (∀ c, c ∈ powerset s ↔ c `sublist_of` s) ∧
  (NoDup s → NoDup (powerset s)).
Proof.
  split_and!.
  - apply powerset_length.
  - apply elem_of_powerset.
  - apply powerset_NoDup.
Qed.

(** X2: [powerset] yields the subsequences in order of size: the empty one
    first, the whole input last, and never a longer one before a shorter
    one. *)
Theorem powerset_ordered_by_size s :
  head (powerset s) = Some [] ∧
  last (powerset s) = Some s ∧
  ∀ i j c d,
    powerset s !! i = Some c →
    powerset s !! j = Some d →
    (i ≤ j)%nat →
    (length c ≤ length d)%nat.
Proof.
  unfold powerset. rewrite Nat.add_1_r. split_and!.
  - simpl. by rewrite (combinations_0 s).
  - by rewrite chain_snoc, combinations_all, last_snoc.
  - apply chain_ordered.
Qed.
End PowersetOrder.

(** ** The flag enumeration *)



(** ** More on the archiver calls *)

Lemma call_failed_false c : call_failed c = false ↔ call_status c = Some 0.
Proof.
  unfold call_failed. destruct (call_status c) as [rc|]; [|done].
  rewrite negb_false_iff, Z.eqb_eq. split; [by intros ->|by intros [=]].
Qed.

Lemma tes4_names_NoDup a_args :
  NoDup (map (λ args : list string, args !! 3%nat) (tes4_args a_args)).
Proof. vm_compute. by apply (bool_decide_unpack _). Qed.

Section MoreCalls.
Context (spawn : gmap string node → string → list string → spawned).


Lemma for_iterator_pack_fs a_args format it w :
  (∀ m dir args,
     spawn m dir args = NotExecutable ∨ ∃ rc, spawn m dir args = Exited rc m) →
  fs (for_iterator it (λ combo, pack spawn a_args format combo) w).2 = fs w.
Proof.
  intros Hspawn. revert w. induction it as [|combo it IH]; intros w; [done|].
  simpl. unfold bind. rewrite pack_run. unfold subprocess_run.
  destruct (Hspawn (fs w) (cwd w)
              (pack_args a_args format (flags_of combo))) as [->|[rc ->]];
    [done|].
  destruct (Z.eqb_spec rc 0) as [->|Hrc]; simpl; [|done].
  by rewrite IH.
Qed.

(** X5: whatever the archiver does, [combinate] makes between 1 and 16
    calls, and their argument vectors are an initial part of the sequence of
    the [tes4] jobs in power set order.  It returns normally exactly when it
    made all 16 calls and each of them exited with status 0. *)
Theorem combinate_calls_prefix a_args w :
  ∃ new,
    calls (combinate spawn a_args w).2 = calls w ++ new ∧
    (1 ≤ length new ≤ 16)%nat ∧
    map call_args new =
      take (length new)
        (map (λ combo, pack_args a_args "tes4" (flags_of combo))
           (powerset flag_values)) ∧
    ((combinate spawn a_args w).1 = Ok tt ↔
     length new = 16%nat ∧ Forall (λ c, call_status c = Some 0) new).
Proof.
  rewrite combinate_first_format. cbv zeta.
  destruct (for_iterator_pack spawn a_args "tes4" (powerset flag_values) w)
    as (new & Hcalls & _ & _ & Hargs & Hff & Hit).
  revert Hcalls Hff Hit. cbv zeta.
  destruct (for_iterator (powerset flag_values) _ w) as [r w'].
  cbn [fst snd]. rewrite (powerset_length flag_values).
  change (2 ^ length flag_values)%nat with 16%nat.
  intros Hcalls Hff Hit.
  assert (length new ≤ 16)%nat as Hle.
  { apply (f_equal length) in Hargs.
    rewrite length_map, length_take, length_map, powerset_length in Hargs.
    change (2 ^ length flag_values)%nat with 16%nat in Hargs. lia. }
  exists new. split_and!; [done| |done|done|].
  - destruct r as [it'|e].
    + destruct (Hit it' eq_refl) as [_ Hlen]. lia.
    + destruct Hff as (_ & pre & c & -> & _).
      rewrite length_app in *. cbn [length] in *. lia.
  - destruct r as [it'|e].
    + destruct (Hit it' eq_refl) as [_ Hlen]. split; [|done]. intros _.
      split; [done|]. eapply Forall_impl; [exact Hff|].
      intros c. by rewrite call_failed_false.
    + split; [done|]. intros [_ Hall].
      destruct Hff as (_ & pre & c & -> & _ & Hc).
      apply Forall_app in Hall as [_ Hall]. inversion Hall as [|? ? Hc0 _].
      apply call_failed_false in Hc0. congruence.
Qed.


Context (script_dir : string)
        (parse_args : list string → result Namespace).

(** X4: no two calls of a run name the same output archive. *)
Theorem run_output_names_distinct argv w :
  ∃ new,
    calls (script spawn script_dir parse_args argv w).2 = calls w ++ new ∧
    NoDup (map (λ c, call_args c !! 3%nat) new).
Proof.
  rewrite script_main. cbn [snd].
  destruct (main_trace spawn script_dir parse_args argv w)
    as (new & Hcalls & Hcase).
  exists new. split; [done|].
  destruct Hcase as [[-> _]|(a_args & _ & _ & _ & _ & _ & _ & Hargs & _)];
    [by constructor|].
  rewrite <- (map_map call_args (λ args : list string, args !! 3%nat)).
  rewrite Hargs, <- firstn_map.
  eapply sublist_NoDup; [apply tes4_names_NoDup|apply sublist_take].
Qed.

(** X7: what stops a run before the first call.  A command line that does
    not parse leaves the process and the file system as they were.  With a
    parsed command line, a script directory that is not there, or a regular
    file named [bin] in it, ends the run with an exception and exit status 1
    without any archiver call; in the second case the working directory has
    already moved to the script directory. *)
Theorem main_stops_before_first_call argv w :
  String.prefix "/" script_dir = true →
  let bin := os_path_join script_dir "bin" in
  (∀ e, parse_args argv = Raise e →
        script spawn script_dir parse_args argv w
          = (exit_status (Raise e), w)) ∧
  (∀ a_args, parse_args argv = Ok a_args →
     fs w !! script_dir = None →
     script spawn script_dir parse_args argv w = (1, w)) ∧
  (∀ a_args, parse_args argv = Ok a_args →
     fs w !! script_dir = Some Directory →
     fs w !! bin = Some RegularFile →
     main spawn script_dir parse_args argv w
       = (Raise FileExistsError, set_cwd w script_dir) ∧
     (script spawn script_dir parse_args argv w).1 = 1).
Proof.
  intros Habs bin.
  pose proof (os_path_join_absolute (cwd w) script_dir Habs) as Hhome.
  split_and!.
  - intros e He. unfold script, main, bind, lift. by rewrite He.
  - intros a_args Ha Hdir. unfold script, main, bind, lift, os_chdir.
    by rewrite Ha, Hhome, Hdir.
  - intros a_args Ha Hdir Hbin.
    assert (main spawn script_dir parse_args argv w
            = (Raise FileExistsError, set_cwd w script_dir)) as Hmain.
    { unfold main, bind, lift. rewrite Ha. unfold os_chdir at 1.
      rewrite Hhome, Hdir. unfold os_makedirs. cbn [cwd fs set_cwd].
      fold bin. by rewrite Hbin. }
    split; [done|]. unfold script. by rewrite Hmain.
Qed.

(** X8: the tool itself changes nothing in the file system but the [bin]
    directory: with an archiver that leaves the file system alone, the file
    system after a run is the one before it, or that one with the new
    directory [bin] when there was nothing at that path. *)
Theorem main_only_adds_bin argv w :
  (∀ m dir args,
     spawn m dir args = NotExecutable ∨ ∃ rc, spawn m dir args = Exited rc m) →
  let bin := os_path_join (os_path_join (cwd w) script_dir) "bin" in
  fs (main spawn script_dir parse_args argv w).2 = fs w ∨
  fs w !! bin = None ∧
  fs (main spawn script_dir parse_args argv w).2
    = <[bin := Directory]> (fs w).
Proof.
  intros Hspawn bin. subst bin.
  remember (os_path_join (cwd w) script_dir) as home eqn:Hhome.
  remember (os_path_join home "bin") as bin eqn:Hbin.
  remember (main spawn script_dir parse_args argv w) as rw eqn:Hrw.
  unfold main, bind, lift in Hrw.
  destruct (parse_args argv) as [a_args|e]; [|subst rw; by left].
  unfold os_chdir at 1 in Hrw. rewrite <- Hhome in Hrw.
  destruct (fs w !! home) as [[]|]; [|subst rw; by left..].
  unfold os_makedirs in Hrw. cbn [cwd fs set_cwd] in Hrw.
  rewrite <- Hbin in Hrw.
  destruct (fs w !! bin) as [[]|] eqn:Hlookup; [|subst rw; by left|].
  - left. unfold os_chdir in Hrw. cbn [cwd fs set_cwd] in Hrw.
    rewrite <- Hbin, Hlookup, combinate_first_format in Hrw.
    subst rw. cbv zeta. cbn [snd].
    by rewrite for_iterator_pack_fs.
  - right. split; [done|].
    unfold os_chdir in Hrw. cbn [cwd fs set_cwd set_fs] in Hrw.
    rewrite <- Hbin, lookup_insert_eq, combinate_first_format in Hrw.
    subst rw. cbv zeta. cbn [snd].
    by rewrite for_iterator_pack_fs.
Qed.
End MoreCalls.


Lemma main_stops_before_first_call_witness :
  String.prefix "/" "/repo/scripts" = true ∧
  main no_archiver "/repo/scripts" two_positionals example_argv blocked_world
    = (Raise FileExistsError, set_cwd blocked_world "/repo/scripts") ∧
  (script no_archiver "/repo/scripts" two_positionals example_argv
     blocked_world).1 = 1.
Proof.
  assert (String.prefix "/" "/repo/scripts" = true) as Habs by reflexivity.
  split; [exact Habs|].
  exact (proj2 (proj2
    (main_stops_before_first_call no_archiver "/repo/scripts"
       two_positionals example_argv blocked_world Habs))
    {| bsarch := "bsarch.exe"; directory := "data" |}
    eq_refl eq_refl eq_refl).
Defined.

Lemma main_only_adds_bin_witness :
  (∀ m dir args,
     no_archiver m dir args = NotExecutable ∨
     ∃ rc, no_archiver m dir args = Exited rc m) ∧
  (fs (main no_archiver "/repo/scripts" two_positionals example_argv
         example_world).2 = fs example_world ∨
   fs example_world !! "/repo/scripts/bin" = None ∧
   fs (main no_archiver "/repo/scripts" two_positionals example_argv
         example_world).2
     = <["/repo/scripts/bin" := Directory]> (fs example_world)).
Proof.
  assert (∀ m dir args,
            no_archiver m dir args = NotExecutable ∨
            ∃ rc, no_archiver m dir args = Exited rc m) as Hspawn
    by (intros m dir args; left; reflexivity).
  split; [exact Hspawn|].
  exact (main_only_adds_bin no_archiver "/repo/scripts" two_positionals
           example_argv example_world Hspawn).
Defined.
